(** * systemapi: a shallow embedding of [src/systemapi.cpp]

    The library exports four C-linkage functions.  [CalculateFactorial] is
    pure; the three others each make one call into the operating system.
    Machine integers are modelled as [Z] with the conversions of the C++
    abstract machine written out; operating-system calls are modelled as
    events of a small free monad that an arbitrary handler interprets. *)

From Stdlib Require Import ZArith Lia List Bool.
Import ListNotations.

Local Open Scope Z_scope.

(** ** Machine integers *)

Definition INT_MAX : Z := 2147483647.
Definition INT_MIN : Z := -2147483648.

(** [int] values, the range of the parameter [n] and of the counter [i]. *)
Definition in_int (x : Z) : Prop := INT_MIN <= x <= INT_MAX.

(** Conversion to [uint64_t] and to [uint32_t]: reduction modulo 2^w. *)
Definition to_u64 (x : Z) : Z := x mod 2 ^ 64.
Definition to_u32 (x : Z) : Z := x mod 2 ^ 32.

(** [uint64_t] multiplication. *)
Definition mul_u64 (a b : Z) : Z := to_u64 (a * b).

(** What a call of a function of the library can do: return a value, run
    into behaviour the C++ standard leaves undefined, or still be running
    after the number of loop iterations the model was allowed. *)
Inductive outcome (A : Type) : Type :=
| Returns (v : A)
| Undefined
| OutOfFuel.

Arguments Returns {A} v.
Arguments Undefined {A}.
Arguments OutOfFuel {A}.

(** [++i] on an [int]: overflow of a signed integer is undefined. *)
Definition pre_increment (i : Z) : option Z :=
  if i <? INT_MAX then Some (i + 1) else None.

(** [++i] where signed arithmetic wraps (two's complement hardware, or a
    compiler told to define signed overflow). *)
Definition pre_increment_wrapv (i : Z) : option Z :=
  Some (if i <? INT_MAX then i + 1 else INT_MIN).

(** ** The runtime factorial *)

Section Loop.

Variable incr : Z -> option Z.

(** [for (int i = 2; i <= n; ++i) result *= i;] from the state
    ([i], [result]); [fuel] bounds the number of times the body runs. *)
Fixpoint factorial_loop (fuel : nat) (n i result : Z) : outcome Z :=
  if i <=? n then
    match fuel with
    | O => OutOfFuel
    | S fuel' =>
        let result' := mul_u64 result (to_u64 i) in
        match incr i with
        | Some i' => factorial_loop fuel' n i' result'
        | None => Undefined
        end
    end
  else Returns result.

Definition calculateFactorialRuntime_with (fuel : nat) (n : Z) : outcome Z :=
  if n <? 0 then Returns 0
  else if (n =? 0) || (n =? 1) then Returns 1
  else factorial_loop fuel n 2 1.

End Loop.

(** The function under the C++ standard's semantics.  The body of the loop
    runs at most [n - 1] times, so [n] iterations are always enough (see
    [calculateFactorialRuntime_fuel_enough]). *)
Definition calculateFactorialRuntime_fuel : nat -> Z -> outcome Z :=
  calculateFactorialRuntime_with pre_increment.

Definition calculateFactorialRuntime (n : Z) : outcome Z :=
  calculateFactorialRuntime_fuel (Z.to_nat n) n.

(** The same source under wrapping signed arithmetic. *)
Definition calculateFactorialRuntime_wrapv : nat -> Z -> outcome Z :=
  calculateFactorialRuntime_with pre_increment_wrapv.

(** The exported function. *)
Definition CalculateFactorial (n : Z) : outcome Z :=
  calculateFactorialRuntime n.

(** ** The compile-time factorial *)

(** [Factorial<N>::value].  Instantiating [Factorial<N>] for [N <> 0]
    instantiates [Factorial<N - 1>]; [depth] is the number of nested
    instantiations the translation allows, and [None] is a program that
    does not compile.  [N - 1] is a constant expression of type [int], so
    it may not overflow.  The product is taken in [uint64_t]. *)
Fixpoint Factorial_value (depth : nat) (N : Z) : option Z :=
  if N =? 0 then Some 1
  else
    match depth with
    | O => None
    | S depth' =>
        if N =? INT_MIN then None
        else
          match Factorial_value depth' (N - 1) with
          | Some v => Some (mul_u64 (to_u64 N) v)
          | None => None
          end
    end.

(** ** The mathematical factorial *)

Fixpoint fact (n : nat) : Z :=
  match n with
  | O => 1
  | S m => Z.of_nat (S m) * fact m
  end.

(** The product 2 * 3 * ... * n, written as a product over the list. *)
Definition product_2_to (n : nat) : Z :=
  fold_right Z.mul 1 (map Z.of_nat (seq 2 (n - 1))).

(** ** Calls into the operating system *)

(** The three branches of the conditional compilation: [_WIN32],
    [__APPLE__], and everything else, which the source takes to be Linux. *)
Inductive platform : Type := Win32 | Apple | Linux.

(** The two components of the name the Apple branch queries. *)
Inductive sysctl_name : Type := CTL_HW | HW_MEMSIZE.

(** The fields of [struct sysinfo] that the source reads: [totalram] is
    an [unsigned long], [mem_unit] an [unsigned int]. *)
Record sysinfo_t : Type := mk_sysinfo { totalram : Z; mem_unit : Z }.

(** [sizeof(MEMORYSTATUSEX)]: two [DWORD]s and seven [DWORDLONG]s. *)
Definition sizeof_MEMORYSTATUSEX : Z := 64.

Definition nullptr : Z := 0.

(** One constructor per system call of the source, with the arguments the
    source passes; the index is what the call hands back to the caller:
    its return value and, for the calls with an out-parameter that is
    read afterwards, the value found there after the call. *)
Inductive osE : Type -> Type :=
| GetComputerNameA (lpBuffer nSize : Z) : osE Z
| gethostname (name len : Z) : osE Z
| GlobalMemoryStatusEx (dwLength : Z) : osE (Z * Z)
| sysctl (mib : list sysctl_name) (namelen oldval oldlen : Z) : osE (Z * Z)
| sysinfo : osE (Z * sysinfo_t)
| GetCurrentProcessId : osE Z
| getpid : osE Z.

(** A function of the library: it returns, or calls the system and goes
    on with the answer. *)
Inductive prog (R : Type) : Type :=
| Ret (r : R)
| Call (X : Type) (e : osE X) (k : X -> prog R).

Arguments Ret {R} r.
Arguments Call {R X} e k.

(** A system call with its answer type hidden, for logs of calls. *)
Inductive os_call : Type :=
| OsCall (X : Type) (e : osE X).

Arguments OsCall {X} e.

(** An operating system over states [W]: each call yields an answer and a
    new state.  The caller's memory is part of [W]. *)
Definition handler (W : Type) : Type := forall X : Type, osE X -> W -> X * W.

Fixpoint run {W R : Type} (h : handler W) (p : prog R) (w : W) : R * W :=
  match p with
  | Ret r => (r, w)
  | Call e k => let (x, w') := h _ e w in run h (k x) w'
  end.

(** The system calls a program makes, in order. *)
Fixpoint os_calls {W R : Type} (h : handler W) (p : prog R) (w : W)
  : list os_call :=
  match p with
  | Ret _ => []
  | Call e k => let (x, w') := h _ e w in OsCall e :: os_calls h (k x) w'
  end.

(** ** The three functions that query the system *)

(** [bufferSize] is positive where it is passed on, so its conversions to
    [DWORD] and to [size_t] keep its value; the cast to [DWORD] is the
    source's. *)
Definition GetComputerNameString (plat : platform) (buffer bufferSize : Z)
  : prog bool :=
  if (buffer =? nullptr) || (bufferSize <=? 0) then Ret false
  else
    match plat with
    | Win32 =>
        Call (GetComputerNameA buffer (to_u32 bufferSize))
             (fun r => Ret (negb (r =? 0)))
    | Apple | Linux =>
        Call (gethostname buffer bufferSize) (fun r => Ret (r =? 0))
    end.

Definition GetTotalPhysicalMemory (plat : platform) : prog Z :=
  match plat with
  | Win32 =>
      Call (GlobalMemoryStatusEx sizeof_MEMORYSTATUSEX)
           (fun a => if negb (fst a =? 0) then Ret (snd a) else Ret 0)
  | Apple =>
      Call (sysctl [CTL_HW; HW_MEMSIZE] 2 0 8)
           (fun a => if fst a =? 0 then Ret (snd a) else Ret 0)
  | Linux =>
      Call sysinfo
           (fun a =>
              if fst a =? 0
              then Ret (mul_u64 (to_u64 (totalram (snd a)))
                                (to_u64 (mem_unit (snd a))))
              else Ret 0)
  end.

Definition GetCurrentProcessID (plat : platform) : prog Z :=
  match plat with
  | Win32 => Call GetCurrentProcessId (fun pid => Ret (to_u32 pid))
  | Apple | Linux => Call getpid (fun pid => Ret (to_u32 pid))
  end.

(** The system call each branch of a function makes, and whether its
    answer reports a failure, by the convention of that call:
    [GetComputerNameA] and [GlobalMemoryStatusEx] return zero on failure,
    [gethostname], [sysctl] and [sysinfo] return zero on success. *)
Definition hostname_call_fails {W : Type} (h : handler W) (w : W)
  (plat : platform) (buffer bufferSize : Z) : Prop :=
  match plat with
  | Win32 => fst (h _ (GetComputerNameA buffer (to_u32 bufferSize)) w) = 0
  | Apple | Linux => fst (h _ (gethostname buffer bufferSize) w) <> 0
  end.

Definition memory_query_fails {W : Type} (h : handler W) (w : W)
  (plat : platform) : Prop :=
  match plat with
  | Win32 => fst (fst (h _ (GlobalMemoryStatusEx sizeof_MEMORYSTATUSEX) w)) = 0
  | Apple => fst (fst (h _ (sysctl [CTL_HW; HW_MEMSIZE] 2 0 8) w)) <> 0
  | Linux => fst (fst (h _ sysinfo w)) <> 0
  end.

(** The process identifier the system reports in state [w]. *)
Definition os_pid {W : Type} (h : handler W) (w : W) (plat : platform) : Z :=
  match plat with
  | Win32 => fst (h _ GetCurrentProcessId w)
  | Apple | Linux => fst (h _ getpid w)
  end.

(** ** A reference operating system

    A small machine to run the functions on: a byte-addressed memory, a
    host name, the amount of memory in units, a process identifier, and a
    switch that makes the memory queries fail. *)

Record machine : Type := mk_machine {
  memory : Z -> Z;
  host_name : list Z;
  ram_units : Z;
  ram_unit : Z;
  process_id : Z;
  queries_fail : bool
}.

Fixpoint store_bytes (m : Z -> Z) (a : Z) (bs : list Z) : Z -> Z :=
  match bs with
  | [] => m
  | b :: bs' => store_bytes (fun x => if x =? a then b else m x) (a + 1) bs'
  end.

Definition with_memory (w : machine) (m : Z -> Z) : machine :=
  mk_machine m (host_name w) (ram_units w) (ram_unit w) (process_id w)
             (queries_fail w).

(** Writes the name and its terminator where they fit, fails otherwise. *)
Definition write_host_name (w : machine) (a len : Z) : option machine :=
  if Z.of_nat (length (host_name w)) <? len
  then Some (with_memory w (store_bytes (memory w) a (host_name w ++ [0])))
  else None.

Definition ref_os : handler machine :=
  fun X e =>
    match e in osE T return machine -> T * machine with
    | GetComputerNameA b n =>
        fun w => match write_host_name w b n with
                 | Some w' => (1, w')
                 | None => (0, w)
                 end
    | gethostname b n =>
        fun w => match write_host_name w b n with
                 | Some w' => (0, w')
                 | None => (-1, w)
                 end
    | GlobalMemoryStatusEx _ =>
        fun w => if queries_fail w then ((0, 0), w)
                 else ((1, ram_units w * ram_unit w), w)
    | sysctl _ _ old _ =>
        fun w => if queries_fail w then ((-1, old), w)
                 else ((0, ram_units w * ram_unit w), w)
    | sysinfo =>
        fun w => if queries_fail w then ((-1, mk_sysinfo 0 0), w)
                 else ((0, mk_sysinfo (ram_units w) (ram_unit w)), w)
    | GetCurrentProcessId => fun w => (process_id w, w)
    | getpid => fun w => (process_id w, w)
    end.

(** A machine named "host" with 16 GiB in 4 KiB units. *)
Definition a_machine : machine :=
  mk_machine (fun _ => 255) [104; 111; 115; 116] 4194304 4096 4242 false.

Definition a_failing_machine : machine :=
  mk_machine (fun _ => 255) [104; 111; 115; 116] 4194304 4096 4242 true.

(** ** The 2-adic valuation of a factorial *)

(** The number of trailing zero bits and the number of one bits. *)
Fixpoint pos_ctz (p : positive) : nat :=
  match p with
  | xO q => S (pos_ctz q)
  | _ => O
  end.

Fixpoint pos_popcount (p : positive) : nat :=
  match p with
  | xH => 1%nat
  | xO q => pos_popcount q
  | xI q => S (pos_popcount q)
  end.

(** The exponent of 2 in [k], and the sum of the binary digits of [k]. *)
Definition nu2 (k : nat) : nat :=
  match N.of_nat k with
  | N0 => O
  | Npos p => pos_ctz p
  end.

Definition digit_sum (k : nat) : nat :=
  match N.of_nat k with
  | N0 => O
  | Npos p => pos_popcount p
  end.

(** The odd part of [k]: [k] divided by its power of 2. *)
Definition odd_part (k : nat) : Z := Z.of_nat k / 2 ^ Z.of_nat (nu2 k).

(** The exponent of 2 in [n!], as the sum of the exponents of 1, ..., n,
    and the product of the odd parts. *)
Fixpoint nu2_fact (n : nat) : nat :=
  match n with
  | O => O
  | S m => (nu2 (S m) + nu2_fact m)%nat
  end.

Fixpoint odd_fact (n : nat) : Z :=
  match n with
  | O => 1
  | S m => odd_part (S m) * odd_fact m
  end.

(** ** The exported interface *)

(** The four functions the header declares, each with its arguments. *)
Inductive exported_call : Type :=
| Call_GetComputerNameString (buffer bufferSize : Z)
| Call_GetTotalPhysicalMemory
| Call_GetCurrentProcessID
| Call_CalculateFactorial (n : Z).

(** What they return: a [bool], a [uint64_t] or a [uint32_t]. *)
Inductive value : Type :=
| Bool (b : bool)
| UInt64 (v : Z)
| UInt32 (v : Z).

Fixpoint map_prog {A B : Type} (f : A -> B) (p : prog A) : prog B :=
  match p with
  | Ret r => Ret (f r)
  | Call e k => Call e (fun x => map_prog f (k x))
  end.

Definition map_outcome {A B : Type} (f : A -> B) (o : outcome A) : outcome B :=
  match o with
  | Returns v => Returns (f v)
  | Undefined => Undefined
  | OutOfFuel => OutOfFuel
  end.

(** A call through the interface on a given platform. *)
Definition invoke (plat : platform) (c : exported_call) : prog (outcome value) :=
  match c with
  | Call_GetComputerNameString buffer bufferSize =>
      map_prog (fun b => Returns (Bool b))
               (GetComputerNameString plat buffer bufferSize)
  | Call_GetTotalPhysicalMemory =>
      map_prog (fun v => Returns (UInt64 v)) (GetTotalPhysicalMemory plat)
  | Call_GetCurrentProcessID =>
      map_prog (fun v => Returns (UInt32 v)) (GetCurrentProcessID plat)
  | Call_CalculateFactorial n => Ret (map_outcome UInt64 (CalculateFactorial n))
  end.

(** Two states of two systems in which every system call gets the same
    answer. *)
Definition same_answers {W1 W2 : Type} (h1 : handler W1) (w1 : W1)
  (h2 : handler W2) (w2 : W2) : Prop :=
  forall (X : Type) (e : osE X), fst (h1 X e w1) = fst (h2 X e w2).

(** ** What the system reports *)

(** The system call the platform's branch of [GetComputerNameString]
    makes with valid arguments. *)
Definition hostname_call (plat : platform) (buffer bufferSize : Z) : osE Z :=
  match plat with
  | Win32 => GetComputerNameA buffer bufferSize
  | Apple | Linux => gethostname buffer bufferSize
  end.

(** The number of bytes the memory query of the branch reports: the field
    [ullTotalPhys], the value [sysctl] stored, or the product of the two
    fields of [struct sysinfo] in [uint64_t]. *)
Definition memory_query_reports {W : Type} (h : handler W) (w : W)
  (plat : platform) : Z :=
  match plat with
  | Win32 => snd (fst (h _ (GlobalMemoryStatusEx sizeof_MEMORYSTATUSEX) w))
  | Apple => snd (fst (h _ (sysctl [CTL_HW; HW_MEMSIZE] 2 0 8) w))
  | Linux =>
      (totalram (snd (fst (h _ sysinfo w)))
       * mem_unit (snd (fst (h _ sysinfo w)))) mod 2 ^ 64
  end.

(** The values of the type of a process identifier: a [DWORD] on Windows,
    a [pid_t], which is an [int], elsewhere. *)
Definition pid_in_range (plat : platform) (pid : Z) : Prop :=
  match plat with
  | Win32 => 0 <= pid < 2 ^ 32
  | Apple | Linux => in_int pid
  end.

(** * Properties *)

(** ** Unsigned arithmetic *)

Lemma to_u64_range (x : Z) : 0 <= to_u64 x < 2 ^ 64.
Proof. unfold to_u64. apply Z.mod_pos_bound. lia. Qed.

Lemma to_u32_range (x : Z) : 0 <= to_u32 x < 2 ^ 32.
Proof. unfold to_u32. apply Z.mod_pos_bound. lia. Qed.

Lemma to_u64_small (x : Z) : 0 <= x < 2 ^ 64 -> to_u64 x = x.
Proof. intros H. unfold to_u64. apply Z.mod_small. exact H. Qed.

Lemma to_u32_small (x : Z) : 0 <= x < 2 ^ 32 -> to_u32 x = x.
Proof. intros H. unfold to_u32. apply Z.mod_small. exact H. Qed.

Lemma to_u64_idem (x : Z) : to_u64 (to_u64 x) = to_u64 x.
Proof. apply to_u64_small, to_u64_range. Qed.

Lemma mul_u64_to_u64 (a b : Z) : mul_u64 (to_u64 a) (to_u64 b) = to_u64 (a * b).
Proof. unfold mul_u64, to_u64. symmetry. apply Z.mul_mod. lia. Qed.

Lemma mul_u64_to_u64_r (a b : Z) : mul_u64 a (to_u64 b) = to_u64 (a * b).
Proof. unfold mul_u64, to_u64. apply Z.mul_mod_idemp_r. lia. Qed.

Lemma mul_u64_to_u64_l (a b : Z) : mul_u64 (to_u64 a) b = to_u64 (a * b).
Proof. unfold mul_u64, to_u64. apply Z.mul_mod_idemp_l. lia. Qed.

Lemma to_u64_divide (x : Z) : (2 ^ 64 | x) -> to_u64 x = 0.
Proof.
  intros [q Hq]. unfold to_u64. subst x. apply Z.mod_mul. lia.
Qed.

(** ** The mathematical factorial *)

Lemma fact_succ (n : nat) : fact (S n) = Z.of_nat (S n) * fact n.
Proof. reflexivity. Qed.

Lemma fact_pos (n : nat) : 0 < fact n.
Proof.
  induction n as [|m IH]; [reflexivity|].
  rewrite fact_succ. apply Z.mul_pos_pos; lia.
Qed.

(** [fact] at an integer that is at least 1. *)
Lemma fact_Z_step (i : Z) :
  1 <= i -> fact (Z.to_nat i) = i * fact (Z.to_nat (i - 1)).
Proof.
  intros Hi. replace (Z.to_nat i) with (S (Z.to_nat (i - 1))) by lia.
  rewrite fact_succ. f_equal. lia.
Qed.

Lemma fold_product_seq (a len : nat) :
  fold_right Z.mul 1 (map Z.of_nat (seq a (S len)))
  = fold_right Z.mul 1 (map Z.of_nat (seq a len)) * Z.of_nat (a + len).
Proof.
  revert a. induction len as [|len IH]; intros a.
  - cbn [seq map fold_right]. rewrite Nat.add_0_r. ring.
  - change (seq a (S (S len))) with (a :: seq (S a) (S len)).
    cbn [map fold_right]. rewrite IH.
    change (seq a (S len)) with (a :: seq (S a) len).
    cbn [map fold_right]. replace (S a + len)%nat with (a + S len)%nat by lia.
    ring.
Qed.

(** The product 2 * 3 * ... * n is n!. *)
Lemma product_2_to_fact (n : nat) : (2 <= n)%nat -> product_2_to n = fact n.
Proof.
  unfold product_2_to. induction n as [|n IH]; intros Hn; [lia|].
  destruct (Nat.eq_dec n 1) as [->|Hne]; [reflexivity|].
  replace (S n - 1)%nat with (S (n - 1)) by lia.
  rewrite fold_product_seq, IH by lia. rewrite fact_succ.
  replace (2 + (n - 1))%nat with (S n) by lia. ring.
Qed.

(** ** The loop *)

Lemma factorial_loop_eq (incr : Z -> option Z) (fuel : nat) (n i r : Z) :
  factorial_loop incr fuel n i r =
  if i <=? n then
    match fuel with
    | O => OutOfFuel
    | S fuel' =>
        match incr i with
        | Some i' => factorial_loop incr fuel' n i' (mul_u64 r (to_u64 i))
        | None => Undefined
        end
    end
  else Returns r.
Proof. destruct fuel; reflexivity. Qed.

Lemma pre_increment_lt (i : Z) : i < INT_MAX -> pre_increment i = Some (i + 1).
Proof.
  intros H. unfold pre_increment.
  destruct (Z.ltb_spec i INT_MAX); [reflexivity | lia].
Qed.

Lemma pre_increment_max : pre_increment INT_MAX = None.
Proof. reflexivity. Qed.

(** Below [INT_MAX] the loop leaves with the factorial of [n], reduced
    modulo 2^64, once it may run the [n + 1 - i] iterations that are left. *)
Lemma factorial_loop_returns (fuel : nat) (n i r : Z) :
  1 <= i <= n + 1 -> n < INT_MAX ->
  n + 1 - i <= Z.of_nat fuel ->
  r = to_u64 (fact (Z.to_nat (i - 1))) ->
  factorial_loop pre_increment fuel n i r
  = Returns (to_u64 (fact (Z.to_nat n))).
Proof.
  revert i r. induction fuel as [|fuel IH]; intros i r Hi Hn Hfuel Hr;
    rewrite factorial_loop_eq.
  - destruct (Z.leb_spec i n); [lia|].
    replace n with (i - 1) by lia. now subst r.
  - destruct (Z.leb_spec i n) as [Hle|Hgt].
    + rewrite pre_increment_lt by lia.
      apply IH; try lia.
      subst r. rewrite mul_u64_to_u64.
      replace (i + 1 - 1) with i by lia.
      rewrite (fact_Z_step i) by lia. f_equal. ring.
    + replace n with (i - 1) by lia. now subst r.
Qed.

(** At [INT_MAX] the condition [i <= n] holds for every [int]: the loop
    cannot leave through it. *)
Lemma factorial_loop_INT_MAX_stuck (incr : Z -> option Z) (fuel : nat)
  (i r v : Z) :
  (forall j j', j <= INT_MAX -> incr j = Some j' -> j' <= INT_MAX) ->
  i <= INT_MAX ->
  factorial_loop incr fuel INT_MAX i r <> Returns v.
Proof.
  intros Hincr. revert i r. induction fuel as [|fuel IH]; intros i r Hi;
    rewrite factorial_loop_eq; destruct (Z.leb_spec i INT_MAX); try lia.
  - discriminate.
  - destruct (incr i) as [i'|] eqn:E; [|discriminate].
    apply IH. eapply Hincr; eassumption.
Qed.

(** Under the standard's semantics the loop reaches the overflowing
    increment as soon as it may run the iterations up to it. *)
Lemma factorial_loop_INT_MAX_undefined (fuel : nat) (i r : Z) :
  i <= INT_MAX -> INT_MAX + 1 - i <= Z.of_nat fuel ->
  factorial_loop pre_increment fuel INT_MAX i r = Undefined.
Proof.
  revert i r. induction fuel as [|fuel IH]; intros i r Hi Hfuel;
    rewrite factorial_loop_eq; destruct (Z.leb_spec i INT_MAX); try lia.
  destruct (Z.eq_dec i INT_MAX) as [->|Hne].
  - rewrite pre_increment_max. reflexivity.
  - rewrite pre_increment_lt by lia. apply IH; lia.
Qed.

(** With less fuel than that, it is still running. *)
Lemma factorial_loop_INT_MAX_running (fuel : nat) (i r : Z) :
  i <= INT_MAX -> Z.of_nat fuel < INT_MAX + 1 - i ->
  factorial_loop pre_increment fuel INT_MAX i r = OutOfFuel.
Proof.
  revert i r. induction fuel as [|fuel IH]; intros i r Hi Hfuel;
    rewrite factorial_loop_eq; destruct (Z.leb_spec i INT_MAX); try lia.
  - reflexivity.
  - rewrite pre_increment_lt by lia. apply IH; lia.
Qed.

(** Under wrapping arithmetic the counter goes around and the loop never
    ends, whatever the fuel. *)
Lemma factorial_loop_INT_MAX_wrapv (fuel : nat) (i r : Z) :
  i <= INT_MAX ->
  factorial_loop pre_increment_wrapv fuel INT_MAX i r = OutOfFuel.
Proof.
  revert i r. induction fuel as [|fuel IH]; intros i r Hi;
    rewrite factorial_loop_eq; destruct (Z.leb_spec i INT_MAX); try lia.
  - reflexivity.
  - unfold pre_increment_wrapv.
    destruct (Z.ltb_spec i INT_MAX); apply IH; unfold INT_MIN, INT_MAX in *; lia.
Qed.

(** ** The runtime function *)

Lemma calculateFactorialRuntime_with_loop (incr : Z -> option Z) (fuel : nat)
  (n : Z) :
  2 <= n ->
  calculateFactorialRuntime_with incr fuel n = factorial_loop incr fuel n 2 1.
Proof.
  intros Hn. unfold calculateFactorialRuntime_with.
  destruct (Z.ltb_spec n 0); [lia|].
  destruct (Z.eqb_spec n 0); [lia|].
  destruct (Z.eqb_spec n 1); [lia|]. reflexivity.
Qed.

(** From 2 up to [INT_MAX - 1] the function returns n! modulo 2^64, with
    any fuel that covers the [n - 1] iterations. *)
Lemma calculateFactorialRuntime_fuel_returns (fuel : nat) (n : Z) :
  2 <= n < INT_MAX -> n - 1 <= Z.of_nat fuel ->
  calculateFactorialRuntime_fuel fuel n = Returns (to_u64 (fact (Z.to_nat n))).
Proof.
  intros Hn Hfuel. unfold calculateFactorialRuntime_fuel.
  rewrite calculateFactorialRuntime_with_loop by lia.
  apply factorial_loop_returns; try lia. reflexivity.
Qed.

Lemma calculateFactorialRuntime_returns (n : Z) :
  0 <= n < INT_MAX ->
  calculateFactorialRuntime n = Returns (to_u64 (fact (Z.to_nat n))).
Proof.
  intros Hn. unfold calculateFactorialRuntime.
  destruct (Z.eq_dec n 0) as [->|H0]; [reflexivity|].
  destruct (Z.eq_dec n 1) as [->|H1]; [reflexivity|].
  apply calculateFactorialRuntime_fuel_returns; lia.
Qed.

(** At [INT_MAX] the increment of the counter overflows. *)
Lemma calculateFactorialRuntime_fuel_INT_MAX (fuel : nat) :
  calculateFactorialRuntime_fuel fuel INT_MAX
  = if Z.of_nat fuel <? INT_MAX - 1 then OutOfFuel else Undefined.
Proof.
  unfold calculateFactorialRuntime_fuel.
  rewrite calculateFactorialRuntime_with_loop by (unfold INT_MAX; lia).
  destruct (Z.ltb_spec (Z.of_nat fuel) (INT_MAX - 1)).
  - apply factorial_loop_INT_MAX_running; unfold INT_MAX in *; lia.
  - apply factorial_loop_INT_MAX_undefined; unfold INT_MAX in *; lia.
Qed.

Lemma calculateFactorialRuntime_INT_MAX :
  calculateFactorialRuntime INT_MAX = Undefined.
Proof.
  unfold calculateFactorialRuntime.
  rewrite calculateFactorialRuntime_fuel_INT_MAX.
  destruct (Z.ltb_spec (Z.of_nat (Z.to_nat INT_MAX)) (INT_MAX - 1)) as [H|H];
    [|reflexivity].
  rewrite Z2Nat.id in H; unfold INT_MAX in *; lia.
Qed.

(** The fuel [calculateFactorialRuntime] gives the loop is enough: on an
    [int] the function returns or is undefined, and more fuel changes
    nothing. *)
Lemma calculateFactorialRuntime_fuel_enough (fuel : nat) (n : Z) :
  n <= INT_MAX -> n <= Z.of_nat fuel ->
  calculateFactorialRuntime_fuel fuel n = calculateFactorialRuntime n.
Proof.
  intros Hn Hfuel.
  destruct (Z.eq_dec n INT_MAX) as [->|Hne].
  - rewrite calculateFactorialRuntime_INT_MAX,
      calculateFactorialRuntime_fuel_INT_MAX.
    destruct (Z.ltb_spec (Z.of_nat fuel) (INT_MAX - 1)); [lia|reflexivity].
  - destruct (Z_lt_le_dec n 2) as [Hlt|Hge].
    + unfold calculateFactorialRuntime, calculateFactorialRuntime_fuel,
        calculateFactorialRuntime_with.
      destruct (Z.ltb_spec n 0); [reflexivity|].
      destruct (Z.eqb_spec n 0); [reflexivity|].
      destruct (Z.eqb_spec n 1); [reflexivity|lia].
    + rewrite calculateFactorialRuntime_returns by lia.
      apply calculateFactorialRuntime_fuel_returns; lia.
Qed.

(** The function on every [int]. *)
Lemma calculateFactorialRuntime_int (n : Z) :
  in_int n ->
  calculateFactorialRuntime n =
  if n <? 0 then Returns 0
  else if n <? INT_MAX then Returns (to_u64 (fact (Z.to_nat n)))
  else Undefined.
Proof.
  intros [_ Hn].
  destruct (Z.ltb_spec n 0).
  - unfold calculateFactorialRuntime, calculateFactorialRuntime_fuel,
      calculateFactorialRuntime_with.
    destruct (Z.ltb_spec n 0); [reflexivity|lia].
  - destruct (Z.ltb_spec n INT_MAX).
    + apply calculateFactorialRuntime_returns. lia.
    + replace n with INT_MAX by lia. apply calculateFactorialRuntime_INT_MAX.
Qed.

Lemma calculateFactorialRuntime_not_OutOfFuel (n : Z) :
  in_int n -> calculateFactorialRuntime n <> OutOfFuel.
Proof.
  intros Hn. rewrite (calculateFactorialRuntime_int n Hn).
  destruct (n <? 0); [discriminate|].
  destruct (n <? INT_MAX); discriminate.
Qed.

(** ** The compile-time template *)

Lemma Factorial_value_eq (depth : nat) (N : Z) :
  Factorial_value depth N =
  if N =? 0 then Some 1
  else
    match depth with
    | O => None
    | S depth' =>
        if N =? INT_MIN then None
        else
          match Factorial_value depth' (N - 1) with
          | Some v => Some (mul_u64 (to_u64 N) v)
          | None => None
          end
    end.
Proof. destruct depth; reflexivity. Qed.

(** Inside its domain the template yields N! modulo 2^64. *)
Lemma Factorial_value_in_domain (depth : nat) (N : Z) :
  0 <= N <= Z.of_nat depth ->
  Factorial_value depth N = Some (to_u64 (fact (Z.to_nat N))).
Proof.
  revert N. induction depth as [|depth IH]; intros N HN;
    rewrite Factorial_value_eq; destruct (Z.eqb_spec N 0) as [->|H0];
    try reflexivity; try lia.
  destruct (Z.eqb_spec N INT_MIN); [unfold INT_MIN in *; lia|].
  rewrite IH by lia. rewrite mul_u64_to_u64.
  rewrite (fact_Z_step N) by lia. reflexivity.
Qed.

(** Outside it the instantiation does not end within the depth. *)
Lemma Factorial_value_outside_domain (depth : nat) (N : Z) :
  N < 0 \/ Z.of_nat depth < N -> Factorial_value depth N = None.
Proof.
  revert N. induction depth as [|depth IH]; intros N HN;
    rewrite Factorial_value_eq; destruct (Z.eqb_spec N 0) as [->|H0];
    try reflexivity; try lia.
  destruct (Z.eqb_spec N INT_MIN); [reflexivity|].
  rewrite IH by lia. reflexivity.
Qed.

Lemma Factorial_value_domain (depth : nat) (N v : Z) :
  Factorial_value depth N = Some v <->
  0 <= N <= Z.of_nat depth /\ v = to_u64 (fact (Z.to_nat N)).
Proof.
  split.
  - intros H.
    destruct (Z_lt_le_dec N 0) as [Hneg|Hpos].
    { rewrite Factorial_value_outside_domain in H by lia. discriminate. }
    destruct (Z_lt_le_dec (Z.of_nat depth) N) as [Hbig|Hfit].
    { rewrite Factorial_value_outside_domain in H by lia. discriminate. }
    rewrite Factorial_value_in_domain in H by lia.
    injection H as <-. split; [lia|reflexivity].
  - intros [HN ->]. apply Factorial_value_in_domain. exact HN.
Qed.

(** ** The power of 2 in n! *)

Lemma pos_succ_digits (p : positive) :
  (pos_popcount (Pos.succ p) + pos_ctz (Pos.succ p) = S (pos_popcount p))%nat.
Proof.
  induction p as [q IH|q IH|]; cbn [Pos.succ pos_popcount pos_ctz]; lia.
Qed.

Lemma N_of_nat_succ_pos (k : nat) : N.of_nat (S k) = Npos (Pos.of_succ_nat k).
Proof. reflexivity. Qed.

(** Going from [k] to [k + 1] clears the trailing ones and sets one bit. *)
Lemma digit_sum_succ (k : nat) :
  (digit_sum (S k) + nu2 (S k) = S (digit_sum k))%nat.
Proof.
  unfold digit_sum, nu2. rewrite N_of_nat_succ_pos.
  destruct k as [|k]; [reflexivity|].
  rewrite N_of_nat_succ_pos.
  change (Pos.of_succ_nat (S k)) with (Pos.succ (Pos.of_succ_nat k)).
  apply pos_succ_digits.
Qed.

(** Legendre's formula for the prime 2. *)
Lemma nu2_fact_digit_sum (n : nat) : (nu2_fact n + digit_sum n = n)%nat.
Proof.
  induction n as [|m IH]; [reflexivity|].
  cbn [nu2_fact]. pose proof (digit_sum_succ m). lia.
Qed.

Lemma pos_odd_part (p : positive) :
  exists q : Z, 0 <= q /\ Zpos p = 2 ^ Z.of_nat (pos_ctz p) * (2 * q + 1).
Proof.
  induction p as [r IH|r IH|]; cbn [pos_ctz].
  - exists (Zpos r). split; lia.
  - destruct IH as (q & Hq & E). exists q. split; [exact Hq|].
    rewrite Nat2Z.inj_succ, Z.pow_succ_r by lia.
    rewrite Pos2Z.inj_xO, E. ring.
  - exists 0. split; [lia|reflexivity].
Qed.

Lemma nat_odd_part (k : nat) :
  (1 <= k)%nat ->
  exists q : Z, 0 <= q /\ Z.of_nat k = 2 ^ Z.of_nat (nu2 k) * (2 * q + 1).
Proof.
  intros Hk. destruct k as [|k]; [lia|].
  unfold nu2. rewrite N_of_nat_succ_pos.
  destruct (pos_odd_part (Pos.of_succ_nat k)) as (q & Hq & E).
  exists q. split; [exact Hq|]. rewrite <- E. lia.
Qed.

Lemma odd_part_spec (k : nat) :
  (1 <= k)%nat ->
  Z.of_nat k = 2 ^ Z.of_nat (nu2 k) * odd_part k /\ Z.odd (odd_part k) = true.
Proof.
  intros Hk. destruct (nat_odd_part k Hk) as (q & Hq & E).
  assert (Hp : 0 < 2 ^ Z.of_nat (nu2 k)) by (apply Z.pow_pos_nonneg; lia).
  assert (Ho : odd_part k = 2 * q + 1).
  { unfold odd_part. rewrite E at 1. rewrite Z.mul_comm.
    apply Z.div_mul. lia. }
  rewrite Ho. split; [exact E|].
  rewrite Z.add_comm, Z.odd_add_mul_2. reflexivity.
Qed.

(** n! is 2 to the [nu2_fact n] times an odd number: [nu2_fact n] is the
    2-adic valuation of n!. *)
Lemma fact_odd_fact (n : nat) :
  fact n = 2 ^ Z.of_nat (nu2_fact n) * odd_fact n /\ Z.odd (odd_fact n) = true.
Proof.
  induction n as [|m [IHe IHo]]; [split; reflexivity|].
  destruct (odd_part_spec (S m)) as [E O]; [lia|].
  split.
  - rewrite fact_succ, IHe, E at 1. cbn [nu2_fact odd_fact].
    rewrite Nat2Z.inj_add, Z.pow_add_r by lia. ring.
  - cbn [odd_fact]. rewrite Z.odd_mul, O, IHo. reflexivity.
Qed.

Lemma nu2_fact_divides (n : nat) : (2 ^ Z.of_nat (nu2_fact n) | fact n).
Proof.
  destruct (fact_odd_fact n) as [E _]. exists (odd_fact n). rewrite E at 1. ring.
Qed.

Lemma nu2_fact_maximal (n : nat) : ~ (2 ^ Z.of_nat (S (nu2_fact n)) | fact n).
Proof.
  destruct (fact_odd_fact n) as [E O]. intros [q Hq].
  rewrite Nat2Z.inj_succ, Z.pow_succ_r in Hq by lia.
  assert (Hp : 0 < 2 ^ Z.of_nat (nu2_fact n)) by (apply Z.pow_pos_nonneg; lia).
  assert (Hodd : odd_fact n = 2 * q).
  { apply (Z.mul_reg_l _ _ (2 ^ Z.of_nat (nu2_fact n))); [lia|].
    rewrite <- E, Hq. ring. }
  rewrite Hodd, Z.odd_mul in O. discriminate.
Qed.

Lemma nu2_fact_monotone (m n : nat) :
  (m <= n)%nat -> (nu2_fact m <= nu2_fact n)%nat.
Proof.
  induction 1 as [|n _ IH]; [lia|]. cbn [nu2_fact]. lia.
Qed.

(** The valuation reaches 64 at 66 = 1000010b, where it is 66 - 2. *)
Lemma nu2_fact_66 : nu2_fact 66 = 64%nat.
Proof.
  pose proof (nu2_fact_digit_sum 66) as H.
  change (digit_sum 66) with 2%nat in H. lia.
Qed.

Lemma nu2_fact_65 : nu2_fact 65 = 63%nat.
Proof.
  pose proof (nu2_fact_digit_sum 65) as H.
  change (digit_sum 65) with 2%nat in H. lia.
Qed.

Lemma fact_divisible_by_2_64 (n : nat) : (66 <= n)%nat -> (2 ^ 64 | fact n).
Proof.
  intros Hn. pose proof (nu2_fact_monotone 66 n Hn) as Hm.
  rewrite nu2_fact_66 in Hm.
  apply Z.divide_trans with (2 ^ Z.of_nat (nu2_fact n)).
  - exists (2 ^ (Z.of_nat (nu2_fact n) - 64)).
    rewrite <- Z.pow_add_r by lia. f_equal. lia.
  - apply nu2_fact_divides.
Qed.

Lemma to_u64_fact_large (n : nat) : (66 <= n)%nat -> to_u64 (fact n) = 0.
Proof. intros Hn. apply to_u64_divide, fact_divisible_by_2_64, Hn. Qed.

(** Below 66 the value is not 0: 2^64 does not divide n!. *)
Lemma to_u64_fact_small (n : nat) : (n <= 65)%nat -> to_u64 (fact n) <> 0.
Proof.
  intros Hn Hz. unfold to_u64 in Hz.
  apply Z.mod_divide in Hz; [|lia].
  pose proof (nu2_fact_monotone n 65 Hn) as Hm. rewrite nu2_fact_65 in Hm.
  apply (nu2_fact_maximal n).
  apply Z.divide_trans with (2 ^ 64); [|exact Hz].
  exists (2 ^ (64 - Z.of_nat (S (nu2_fact n)))).
  rewrite <- Z.pow_add_r by lia. f_equal. lia.
Qed.

(** From 66 up to [INT_MAX - 1] the function returns 0, the value it
    returns for a negative argument. *)
Lemma CalculateFactorial_large (n : Z) :
  66 <= n < INT_MAX -> CalculateFactorial n = Returns 0.
Proof.
  intros Hn. unfold CalculateFactorial.
  rewrite calculateFactorialRuntime_returns by lia.
  rewrite to_u64_fact_large by lia. reflexivity.
Qed.

Lemma CalculateFactorial_negative (n : Z) :
  n < 0 -> CalculateFactorial n = Returns 0.
Proof.
  intros Hn.
  unfold CalculateFactorial, calculateFactorialRuntime,
    calculateFactorialRuntime_fuel, calculateFactorialRuntime_with.
  destruct (Z.ltb_spec n 0); [reflexivity|lia].
Qed.

Lemma CalculateFactorial_nonzero_below_66 (n : Z) :
  0 <= n <= 65 -> CalculateFactorial n <> Returns 0.
Proof.
  intros Hn. unfold CalculateFactorial.
  rewrite calculateFactorialRuntime_returns by (unfold INT_MAX; lia).
  intros H. injection H as H. revert H. apply to_u64_fact_small. lia.
Qed.

(** ** CalculateFactorial *)

Example CalculateFactorial_5 : CalculateFactorial 5 = Returns 120.
Proof. reflexivity. Qed.

Example CalculateFactorial_20 :
  CalculateFactorial 20 = Returns 2432902008176640000.
Proof. reflexivity. Qed.

(** 21! = 51090942171709440000 does not fit 64 bits; the function returns
    it modulo 2^64. *)
Example CalculateFactorial_21 :
  CalculateFactorial 21 = Returns 14197454024290336768
  /\ 14197454024290336768 = fact 21 mod 2 ^ 64.
Proof. split; vm_compute; reflexivity. Qed.

(** For every [int] from 2 up to [INT_MAX - 1], the function returns the
    product 2 * 3 * ... * n taken modulo 2^64, which is n! modulo 2^64. *)
Lemma CalculateFactorial_below_INT_MAX (n : Z) :
  2 <= n < INT_MAX ->
  CalculateFactorial n = Returns (product_2_to (Z.to_nat n) mod 2 ^ 64)
  /\ CalculateFactorial n = Returns (fact (Z.to_nat n) mod 2 ^ 64).
Proof.
  intros Hn. rewrite product_2_to_fact by lia.
  split; apply calculateFactorialRuntime_returns; lia.
Qed.

(** C1, at the one argument where it fails: for [n = INT_MAX], which is at
    least 2, [CalculateFactorial] does not return INT_MAX! modulo 2^64.
    The condition [i <= n] holds for every [int] [i], so after the body has
    run for [i = INT_MAX] the increment [++i] overflows: the behaviour is
    undefined, with any fuel that lets the loop get there, and where signed
    arithmetic wraps the loop runs forever. *)
Theorem CalculateFactorial_INT_MAX_undefined :
  (2 <=? INT_MAX) = true
  /\ CalculateFactorial INT_MAX = Undefined
  /\ (forall fuel : nat,
        calculateFactorialRuntime_fuel fuel INT_MAX
        = if Z.of_nat fuel <? INT_MAX - 1 then OutOfFuel else Undefined)
  /\ (forall fuel : nat,
        calculateFactorialRuntime_wrapv fuel INT_MAX = OutOfFuel).
Proof.
  split; [reflexivity|]. split; [exact calculateFactorialRuntime_INT_MAX|].
  split; [exact calculateFactorialRuntime_fuel_INT_MAX|].
  intros fuel. unfold calculateFactorialRuntime_wrapv.
  rewrite calculateFactorialRuntime_with_loop by (unfold INT_MAX; lia).
  apply factorial_loop_INT_MAX_wrapv. unfold INT_MAX. lia.
Qed.

(** C2: [CalculateFactorial] returns 0 for every negative [n], and 1 for
    [n = 0] and for [n = 1]. *)
Theorem CalculateFactorial_negative_zero_one (n : Z) :
  (n < 0 -> CalculateFactorial n = Returns 0)
  /\ (n = 0 \/ n = 1 -> CalculateFactorial n = Returns 1).
Proof.
  split.
  - apply CalculateFactorial_negative.
  - intros [->| ->]; reflexivity.
Qed.

Lemma CalculateFactorial_negative_zero_one_witness :
  CalculateFactorial (-5) = Returns 0
  /\ CalculateFactorial 0 = Returns 1
  /\ CalculateFactorial 1 = Returns 1.
Proof.
  split; [|split].
  - apply (proj1 (CalculateFactorial_negative_zero_one (-5))). lia.
  - apply (proj2 (CalculateFactorial_negative_zero_one 0)). left. reflexivity.
  - apply (proj2 (CalculateFactorial_negative_zero_one 1)). right. reflexivity.
Defined.

(** When the translation instantiates [Factorial<INT_MAX>], its value is
    0, while the runtime function is undefined there. *)
Lemma Factorial_value_INT_MAX (depth : nat) :
  INT_MAX <= Z.of_nat depth ->
  Factorial_value depth INT_MAX = Some 0
  /\ calculateFactorialRuntime INT_MAX = Undefined.
Proof.
  intros Hd. split; [|exact calculateFactorialRuntime_INT_MAX].
  rewrite Factorial_value_in_domain by (unfold INT_MAX in *; lia).
  rewrite to_u64_fact_large; [reflexivity|]. unfold INT_MAX. lia.
Qed.

(** C8: the exported [CalculateFactorial] is [calculateFactorialRuntime]
    at every argument; and wherever the template [Factorial<N>] can be
    instantiated for an [N >= 0], with the translation's limit on nested
    instantiations below [INT_MAX], its [value] is what
    [calculateFactorialRuntime] returns at [N], a number below 2^64.  So
    the template computes nothing the runtime function does not. *)
Theorem Factorial_template_redundant :
  (forall n : Z, CalculateFactorial n = calculateFactorialRuntime n)
  /\ (forall (depth : nat) (N v : Z),
        Z.of_nat depth < INT_MAX ->
        0 <= N ->
        Factorial_value depth N = Some v ->
        calculateFactorialRuntime N = Returns v
        /\ calculateFactorialRuntime N = Returns (v mod 2 ^ 64)).
Proof.
  split; [reflexivity|].
  intros depth N v Hd HN Hv. apply Factorial_value_domain in Hv as [Hdom ->].
  rewrite calculateFactorialRuntime_returns by lia.
  split; [reflexivity|].
  fold (to_u64 (to_u64 (fact (Z.to_nat N)))). rewrite to_u64_idem. reflexivity.
Qed.

Lemma Factorial_template_redundant_witness :
  Factorial_value 900 20 = Some 2432902008176640000
  /\ calculateFactorialRuntime 20 = Returns 2432902008176640000.
Proof.
  assert (Hv : Factorial_value 900 20 = Some 2432902008176640000)
    by (vm_compute; reflexivity).
  split; [exact Hv|].
  apply (proj2 Factorial_template_redundant 900%nat 20 2432902008176640000).
  - unfold INT_MAX. lia.
  - lia.
  - exact Hv.
Defined.

(** C9, at the one argument where it fails: [INT_MAX] is at least 67, and
    [CalculateFactorial INT_MAX] does not return 0: the increment of the
    loop counter overflows and the behaviour is undefined.  A negative
    argument does return 0. *)
Theorem CalculateFactorial_INT_MAX_not_zero :
  (67 <=? INT_MAX) = true
  /\ CalculateFactorial INT_MAX = Undefined
  /\ CalculateFactorial (-1) = Returns 0.
Proof.
  split; [reflexivity|].
  split; [exact calculateFactorialRuntime_INT_MAX|reflexivity].
Qed.

(** ** Running programs *)

Lemma run_Call {W R X : Type} (h : handler W) (e : osE X) (k : X -> prog R)
  (w : W) :
  run h (Call e k) w = run h (k (fst (h X e w))) (snd (h X e w)).
Proof. cbn [run]. destruct (h X e w). reflexivity. Qed.

Lemma os_calls_Call {W R X : Type} (h : handler W) (e : osE X)
  (k : X -> prog R) (w : W) :
  os_calls h (Call e k) w
  = OsCall e :: os_calls h (k (fst (h X e w))) (snd (h X e w)).
Proof. cbn [os_calls]. destruct (h X e w). reflexivity. Qed.

Lemma run_map_prog {W A B : Type} (h : handler W) (f : A -> B) (p : prog A)
  (w : W) :
  run h (map_prog f p) w = (f (fst (run h p w)), snd (run h p w)).
Proof.
  revert w. induction p as [r|X e k IH]; intros w.
  - reflexivity.
  - cbn [map_prog]. rewrite !run_Call. apply IH.
Qed.

Lemma invalid_arguments_spec (buffer bufferSize : Z) :
  (buffer =? nullptr) || (bufferSize <=? 0) = true
  <-> buffer = nullptr \/ bufferSize <= 0.
Proof.
  rewrite orb_true_iff, Z.eqb_eq, Z.leb_le. reflexivity.
Qed.

(** With valid arguments the function is the system call of its branch. *)
Lemma GetComputerNameString_valid (plat : platform) (buffer bufferSize : Z) :
  buffer <> nullptr -> 0 < bufferSize ->
  GetComputerNameString plat buffer bufferSize =
  match plat with
  | Win32 =>
      Call (GetComputerNameA buffer (to_u32 bufferSize))
           (fun r => Ret (negb (r =? 0)))
  | Apple | Linux =>
      Call (gethostname buffer bufferSize) (fun r => Ret (r =? 0))
  end.
Proof.
  intros Hb Hs. unfold GetComputerNameString.
  destruct ((buffer =? nullptr) || (bufferSize <=? 0)) eqn:E; [|reflexivity].
  apply invalid_arguments_spec in E. lia.
Qed.

Lemma GetComputerNameString_invalid (plat : platform) (buffer bufferSize : Z) :
  buffer = nullptr \/ bufferSize <= 0 ->
  GetComputerNameString plat buffer bufferSize = Ret false.
Proof.
  intros H. apply invalid_arguments_spec in H.
  unfold GetComputerNameString. rewrite H. reflexivity.
Qed.

(** ** GetComputerNameString *)

(** C3: [GetComputerNameString] returns false exactly when the buffer is
    null, or the capacity is not positive, or the system call of the
    platform's branch reports a failure; so it returns false for a null
    buffer whatever the capacity, and for capacity 0 whatever the buffer. *)
Theorem GetComputerNameString_false_iff {W : Type} (h : handler W) (w : W)
  (plat : platform) (buffer bufferSize : Z) :
  (fst (run h (GetComputerNameString plat buffer bufferSize) w) = false
   <-> buffer = nullptr \/ bufferSize <= 0
       \/ hostname_call_fails h w plat buffer bufferSize)
  /\ fst (run h (GetComputerNameString plat nullptr bufferSize) w) = false
  /\ fst (run h (GetComputerNameString plat buffer 0) w) = false.
Proof.
  split; [|split].
  - destruct (Z.eq_dec buffer nullptr) as [Hb|Hb].
    { rewrite GetComputerNameString_invalid by (left; exact Hb).
      split; [intros _; left; exact Hb | reflexivity]. }
    destruct (Z_le_gt_dec bufferSize 0) as [Hs|Hs].
    { rewrite GetComputerNameString_invalid by (right; exact Hs).
      split; [intros _; right; left; exact Hs | reflexivity]. }
    rewrite GetComputerNameString_valid by lia.
    unfold hostname_call_fails.
    destruct plat; rewrite run_Call; cbn [run fst].
    + rewrite negb_false_iff, Z.eqb_eq. intuition lia.
    + rewrite Z.eqb_neq. intuition lia.
    + rewrite Z.eqb_neq. intuition lia.
  - rewrite GetComputerNameString_invalid by (left; reflexivity). reflexivity.
  - rewrite GetComputerNameString_invalid by (right; lia). reflexivity.
Qed.

(** On the reference machine, whose name "host" needs 5 bytes: a buffer of
    4 bytes fails, and the equivalence is used from right to left. *)
Lemma GetComputerNameString_false_iff_witness :
  fst (run ref_os (GetComputerNameString Linux 4096 4) a_machine) = false.
Proof.
  apply (proj1 (GetComputerNameString_false_iff ref_os a_machine Linux 4096 4)).
  right. right. cbn. discriminate.
Defined.

(** C10: with a null buffer or a capacity that is not positive, the
    function is the program that returns false at once: on every system
    and in every state it returns false, makes no system call, and leaves
    the state, of which the caller's memory is a part, as it was. *)
Theorem GetComputerNameString_invalid_no_effect {W : Type} (h : handler W)
  (w : W) (plat : platform) (buffer bufferSize : Z) :
  buffer = nullptr \/ bufferSize <= 0 ->
  GetComputerNameString plat buffer bufferSize = Ret false
  /\ run h (GetComputerNameString plat buffer bufferSize) w = (false, w)
  /\ os_calls h (GetComputerNameString plat buffer bufferSize) w = [].
Proof.
  intros H. rewrite (GetComputerNameString_invalid plat _ _ H).
  repeat split.
Qed.

(** On the reference machine, a buffer at 4096 with capacity 0: every byte
    of the memory is what it was. *)
Lemma GetComputerNameString_invalid_no_effect_witness :
  run ref_os (GetComputerNameString Win32 4096 0) a_machine = (false, a_machine)
  /\ forall a : Z,
       memory (snd (run ref_os (GetComputerNameString Win32 4096 0) a_machine)) a
       = memory a_machine a.
Proof.
  assert (H : run ref_os (GetComputerNameString Win32 4096 0) a_machine
              = (false, a_machine)).
  { apply (GetComputerNameString_invalid_no_effect ref_os a_machine Win32 4096 0).
    right. lia. }
  split; [exact H|]. intros a. rewrite H. reflexivity.
Defined.

(** With valid arguments, by contrast, the system is called once, and on
    the reference machine the buffer is written. *)
Example GetComputerNameString_valid_writes :
  fst (run ref_os (GetComputerNameString Linux 4096 16) a_machine) = true
  /\ map (memory (snd (run ref_os (GetComputerNameString Linux 4096 16)
                           a_machine)))
         [4096; 4097; 4098; 4099; 4100; 4101]
     = [104; 111; 115; 116; 0; 255]
  /\ os_calls ref_os (GetComputerNameString Linux 4096 16) a_machine
     = [OsCall (gethostname 4096 16)].
Proof. repeat split. Qed.

(** ** GetTotalPhysicalMemory *)

Lemma GetTotalPhysicalMemory_Linux_run {W : Type} (h : handler W) (w w' : W)
  (info : sysinfo_t) :
  h _ sysinfo w = ((0, info), w') ->
  run h (GetTotalPhysicalMemory Linux) w
  = (to_u64 (totalram info * mem_unit info), w').
Proof.
  intros Hcall. unfold GetTotalPhysicalMemory. rewrite run_Call, Hcall.
  cbn [fst snd]. change (0 =? 0) with true. cbv iota. cbn [run].
  rewrite mul_u64_to_u64. reflexivity.
Qed.

(** C4: on the Linux branch, when [sysinfo] succeeds, the function returns
    [totalram * mem_unit] computed in [uint64_t]: the product modulo 2^64,
    and the product itself whenever that is below 2^64. *)
Theorem GetTotalPhysicalMemory_Linux {W : Type} (h : handler W) (w w' : W)
  (rc : Z) (info : sysinfo_t) :
  h _ sysinfo w = ((rc, info), w') ->
  rc = 0 ->
  run h (GetTotalPhysicalMemory Linux) w
  = ((totalram info * mem_unit info) mod 2 ^ 64, w')
  /\ (0 <= totalram info * mem_unit info < 2 ^ 64 ->
      fst (run h (GetTotalPhysicalMemory Linux) w)
      = totalram info * mem_unit info).
Proof.
  intros Hcall ->.
  pose proof (GetTotalPhysicalMemory_Linux_run h w w' info Hcall) as E.
  split; [exact E|].
  intros Hsmall. rewrite E. cbn [fst]. apply to_u64_small. exact Hsmall.
Qed.

(** 4194304 units of 4096 bytes are 16 GiB. *)
Lemma GetTotalPhysicalMemory_Linux_witness :
  fst (run ref_os (GetTotalPhysicalMemory Linux) a_machine) = 17179869184.
Proof.
  apply (proj2 (GetTotalPhysicalMemory_Linux ref_os a_machine a_machine 0
                  (mk_sysinfo 4194304 4096) eq_refl eq_refl)).
  cbn. lia.
Defined.

(** Where [unsigned long] has 32 bits, the conversion of [totalram] to
    [uint64_t] before the multiplication is what keeps the product exact:
    it is below 2^64, and a product taken in 32 bits would be cut. *)
Lemma GetTotalPhysicalMemory_Linux_exact_32 {W : Type} (h : handler W)
  (w w' : W) (info : sysinfo_t) :
  h _ sysinfo w = ((0, info), w') ->
  0 <= totalram info < 2 ^ 32 -> 0 <= mem_unit info < 2 ^ 32 ->
  fst (run h (GetTotalPhysicalMemory Linux) w) = totalram info * mem_unit info.
Proof.
  intros Hcall Ht Hm.
  rewrite (GetTotalPhysicalMemory_Linux_run h w w' info Hcall). cbn [fst].
  apply to_u64_small. change (2 ^ 64) with (2 ^ 32 * 2 ^ 32). nia.
Qed.

Example GetTotalPhysicalMemory_32_bit_product_would_be_cut :
  fst (run ref_os (GetTotalPhysicalMemory Linux) a_machine) = 17179869184
  /\ to_u32 (4194304 * 4096) = 0.
Proof. split; reflexivity. Qed.

(** C5: on each of the three branches, when the memory query of the branch
    fails, the function returns 0; and on every system and in every state
    the function returns a value, after exactly one system call. *)
Theorem GetTotalPhysicalMemory_failure {W : Type} (h : handler W) (w : W)
  (plat : platform) :
  (exists (v : Z) (w' : W) (c : os_call),
      run h (GetTotalPhysicalMemory plat) w = (v, w')
      /\ os_calls h (GetTotalPhysicalMemory plat) w = [c])
  /\ (memory_query_fails h w plat ->
      fst (run h (GetTotalPhysicalMemory plat) w) = 0).
Proof.
  split.
  - destruct (run h (GetTotalPhysicalMemory plat) w) as [v w'] eqn:E.
    exists v, w'.
    destruct plat; unfold GetTotalPhysicalMemory; rewrite os_calls_Call;
      eexists; (split; [reflexivity|]); f_equal;
      match goal with |- context [if ?b then _ else _] => destruct b end;
      reflexivity.
  - unfold memory_query_fails, GetTotalPhysicalMemory.
    destruct plat; intros Hfail; rewrite run_Call.
    + rewrite Hfail. reflexivity.
    + apply Z.eqb_neq in Hfail. rewrite Hfail. reflexivity.
    + apply Z.eqb_neq in Hfail. rewrite Hfail. reflexivity.
Qed.

Lemma GetTotalPhysicalMemory_failure_witness :
  fst (run ref_os (GetTotalPhysicalMemory Win32) a_failing_machine) = 0
  /\ fst (run ref_os (GetTotalPhysicalMemory Apple) a_failing_machine) = 0
  /\ fst (run ref_os (GetTotalPhysicalMemory Linux) a_failing_machine) = 0.
Proof.
  split; [|split].
  - apply (proj2 (GetTotalPhysicalMemory_failure ref_os a_failing_machine Win32)).
    reflexivity.
  - apply (proj2 (GetTotalPhysicalMemory_failure ref_os a_failing_machine Apple)).
    cbn. discriminate.
  - apply (proj2 (GetTotalPhysicalMemory_failure ref_os a_failing_machine Linux)).
    cbn. discriminate.
Defined.

(** ** GetCurrentProcessID *)

Lemma GetCurrentProcessID_run {W : Type} (h : handler W) (w : W)
  (plat : platform) :
  fst (run h (GetCurrentProcessID plat) w) = to_u32 (os_pid h w plat).
Proof.
  destruct plat; unfold GetCurrentProcessID, os_pid; rewrite run_Call;
    reflexivity.
Qed.

(** C6: [GetCurrentProcessID] has no argument and no branch: on every
    system and in every state it makes the one call that asks for the
    identifier of the process, and returns the answer converted to
    [uint32_t], a number below 2^32. *)
Theorem GetCurrentProcessID_spec {W : Type} (h : handler W) (w : W)
  (plat : platform) :
  fst (run h (GetCurrentProcessID plat) w) = os_pid h w plat mod 2 ^ 32
  /\ 0 <= fst (run h (GetCurrentProcessID plat) w) < 2 ^ 32
  /\ os_calls h (GetCurrentProcessID plat) w
     = [match plat with
        | Win32 => OsCall GetCurrentProcessId
        | Apple | Linux => OsCall getpid
        end].
Proof.
  pose proof (GetCurrentProcessID_run h w plat) as E.
  split; [exact E|]. split.
  - rewrite E. apply to_u32_range.
  - destruct plat; unfold GetCurrentProcessID; rewrite os_calls_Call;
      reflexivity.
Qed.

(** An identifier that is a [DWORD], or a [pid_t] that is not negative, is
    returned as it is. *)
Lemma GetCurrentProcessID_exact {W : Type} (h : handler W) (w : W)
  (plat : platform) :
  0 <= os_pid h w plat < 2 ^ 32 ->
  fst (run h (GetCurrentProcessID plat) w) = os_pid h w plat.
Proof.
  intros Hpid. rewrite GetCurrentProcessID_run.
  apply to_u32_small. exact Hpid.
Qed.

Example GetCurrentProcessID_a_machine :
  fst (run ref_os (GetCurrentProcessID Linux) a_machine) = 4242.
Proof. reflexivity. Qed.

(** ** Determinism *)

(** A program that makes at most one system call returns what the answer
    to that call determines. *)
Lemma same_answers_Call {W1 W2 R X : Type} (h1 : handler W1) (w1 : W1)
  (h2 : handler W2) (w2 : W2) (e : osE X) (f : X -> R) :
  same_answers h1 w1 h2 w2 ->
  fst (run h1 (Call e (fun x => Ret (f x))) w1)
  = fst (run h2 (Call e (fun x => Ret (f x))) w2).
Proof.
  intros H. rewrite !run_Call. cbn [run fst]. rewrite (H X e). reflexivity.
Qed.

Lemma invoke_same_answers {W1 W2 : Type} (h1 : handler W1) (w1 : W1)
  (h2 : handler W2) (w2 : W2) (plat : platform) (c : exported_call) :
  same_answers h1 w1 h2 w2 ->
  fst (run h1 (invoke plat c) w1) = fst (run h2 (invoke plat c) w2).
Proof.
  intros H. destruct c as [buffer bufferSize| | |n]; cbn [invoke].
  - rewrite !run_map_prog. cbn [fst]. do 2 f_equal.
    unfold GetComputerNameString.
    destruct ((buffer =? nullptr) || (bufferSize <=? 0)); [reflexivity|].
    destruct plat; apply same_answers_Call; exact H.
  - rewrite !run_map_prog. cbn [fst]. do 2 f_equal.
    destruct plat; unfold GetTotalPhysicalMemory; rewrite !run_Call;
      rewrite (H _ _);
      match goal with |- context [if ?b then _ else _] => destruct b end;
      reflexivity.
  - rewrite !run_map_prog. cbn [fst]. do 2 f_equal.
    destruct plat; apply same_answers_Call; exact H.
  - reflexivity.
Qed.

(** Where a call through the interface returns [v], a call with the same
    arguments returns [v] too, on any system and in any state in which
    the system calls get the same answers: nothing but the arguments and
    the answers of the system enters the returned value.  This says
    nothing about a call that does not return. *)
Lemma exported_operations_deterministic {W1 W2 : Type} (h1 : handler W1)
  (w1 : W1) (h2 : handler W2) (w2 : W2) (plat : platform) (c : exported_call)
  (v : value) :
  same_answers h1 w1 h2 w2 ->
  fst (run h1 (invoke plat c) w1) = Returns v ->
  fst (run h2 (invoke plat c) w2) = Returns v.
Proof.
  intros H Hv. rewrite <- (invoke_same_answers h1 w1 h2 w2 plat c H). exact Hv.
Qed.


(** A second call right after a first one, in the state the first call
    left: the buffer has been written, the answers are the same. *)
Lemma exported_operations_deterministic_witness :
  fst (run ref_os (invoke Linux (Call_GetComputerNameString 4096 16))
         (snd (run ref_os (invoke Linux (Call_GetComputerNameString 4096 16))
                 a_machine)))
  = Returns (Bool true).
Proof.
  apply (exported_operations_deterministic ref_os a_machine ref_os _ Linux
           (Call_GetComputerNameString 4096 16) (Bool true)).
  - intros X e. destruct e; try reflexivity;
      cbn [ref_os]; unfold write_host_name; cbn;
      match goal with |- context [if ?b then _ else _] => destruct b end;
      reflexivity.
  - reflexivity.
Defined.

(** * Further properties *)

(** ** The value of the runtime factorial *)

Lemma fact_monotone (m n : nat) : (m <= n)%nat -> fact m <= fact n.
Proof.
  induction 1 as [|n _ IH]; [lia|].
  rewrite fact_succ. pose proof (fact_pos n). nia.
Qed.

Lemma fact_20_fits : fact 20 < 2 ^ 64.
Proof. vm_compute. reflexivity. Qed.

Lemma fact_21_overflows : 2 ^ 64 <= fact 21.
Proof. vm_compute. discriminate. Qed.

(** X1: on every [int] below [INT_MAX] the function returns, and the value
    is 0 for a negative argument and n! modulo 2^64 otherwise, a number
    from 0 to 2^64 - 1. *)
Theorem CalculateFactorial_closed_form (n : Z) :
  in_int n -> n < INT_MAX ->
  exists v : Z,
    CalculateFactorial n = Returns v
    /\ 0 <= v < 2 ^ 64
    /\ v = if n <? 0 then 0 else fact (Z.to_nat n) mod 2 ^ 64.
Proof.
  intros Hint Hn. unfold CalculateFactorial.
  rewrite (calculateFactorialRuntime_int n Hint).
  destruct (Z.ltb_spec n 0).
  - exists 0. repeat split; lia.
  - destruct (Z.ltb_spec n INT_MAX); [|lia].
    exists (to_u64 (fact (Z.to_nat n))).
    split; [reflexivity|]. split; [apply to_u64_range|reflexivity].
Qed.

Lemma CalculateFactorial_closed_form_witness :
  exists v : Z, CalculateFactorial 10 = Returns v
                /\ 0 <= v < 2 ^ 64 /\ v = 3628800.
Proof.
  apply (CalculateFactorial_closed_form 10).
  - unfold in_int, INT_MIN, INT_MAX. lia.
  - unfold INT_MAX. lia.
Defined.

(** X2: up to 20 the result is n! itself; from 21 on, below [INT_MAX], it
    is not: 21! is the first factorial that does not fit 64 bits. *)
Theorem CalculateFactorial_exact_up_to_20 (n : Z) :
  (0 <= n <= 20 -> CalculateFactorial n = Returns (fact (Z.to_nat n)))
  /\ (21 <= n < INT_MAX -> CalculateFactorial n <> Returns (fact (Z.to_nat n))).
Proof.
  split; intros Hn; unfold CalculateFactorial;
    rewrite calculateFactorialRuntime_returns by (unfold INT_MAX in *; lia).
  - f_equal. apply to_u64_small. split; [pose proof (fact_pos (Z.to_nat n)); lia|].
    pose proof (fact_monotone (Z.to_nat n) 20 ltac:(lia)).
    pose proof fact_20_fits. lia.
  - intros H. injection H as H.
    pose proof (to_u64_range (fact (Z.to_nat n))).
    pose proof (fact_monotone 21 (Z.to_nat n) ltac:(lia)).
    pose proof fact_21_overflows. lia.
Qed.

Lemma CalculateFactorial_exact_up_to_20_witness :
  CalculateFactorial 12 = Returns 479001600
  /\ CalculateFactorial 25 <> Returns (fact 25).
Proof.
  split.
  - apply (proj1 (CalculateFactorial_exact_up_to_20 12)). lia.
  - apply (proj2 (CalculateFactorial_exact_up_to_20 25)). unfold INT_MAX. lia.
Defined.

(** X3: on the [int]s below [INT_MAX] the function returns 0 exactly for
    the negative arguments and for the arguments from 66 on: the result 0
    tells an invalid argument from a valid one only below 66. *)
Theorem CalculateFactorial_zero_iff (n : Z) :
  in_int n -> n < INT_MAX ->
  (CalculateFactorial n = Returns 0 <-> n < 0 \/ 66 <= n).
Proof.
  intros Hint Hn. split.
  - intros H. destruct (Z_lt_le_dec n 0); [left; assumption|].
    destruct (Z_lt_le_dec n 66); [|right; assumption].
    exfalso. revert H. apply CalculateFactorial_nonzero_below_66. lia.
  - intros [Hneg|Hbig].
    + apply CalculateFactorial_negative, Hneg.
    + apply CalculateFactorial_large. lia.
Qed.

Lemma CalculateFactorial_zero_iff_witness :
  CalculateFactorial 66 = Returns 0 /\ CalculateFactorial 65 <> Returns 0.
Proof.
  assert (H66 : in_int 66) by (unfold in_int, INT_MIN, INT_MAX; lia).
  assert (H65 : in_int 65) by (unfold in_int, INT_MIN, INT_MAX; lia).
  split.
  - apply (proj2 (CalculateFactorial_zero_iff 66 H66 ltac:(unfold INT_MAX; lia))).
    right. lia.
  - intros H.
    apply (proj1 (CalculateFactorial_zero_iff 65 H65 ltac:(unfold INT_MAX; lia)))
      in H.
    lia.
Defined.

(** X4: the results obey the recurrence of the factorial in [uint64_t]:
    what the function returns at [n + 1] is [n + 1] times what it returns
    at [n], modulo 2^64. *)
Theorem CalculateFactorial_recurrence (n r : Z) :
  0 <= n -> n + 1 < INT_MAX ->
  CalculateFactorial n = Returns r ->
  CalculateFactorial (n + 1) = Returns (((n + 1) * r) mod 2 ^ 64).
Proof.
  intros Hn Hmax. unfold CalculateFactorial.
  rewrite !calculateFactorialRuntime_returns by lia.
  intros H. injection H as <-. f_equal.
  rewrite (fact_Z_step (n + 1)) by lia.
  replace (n + 1 - 1) with n by lia.
  fold (to_u64 ((n + 1) * to_u64 (fact (Z.to_nat n)))).
  fold (mul_u64 (n + 1) (to_u64 (fact (Z.to_nat n)))).
  rewrite mul_u64_to_u64_r. reflexivity.
Qed.

Lemma CalculateFactorial_recurrence_witness :
  CalculateFactorial 21 = Returns ((21 * 2432902008176640000) mod 2 ^ 64).
Proof.
  apply (CalculateFactorial_recurrence 20 2432902008176640000).
  - lia.
  - unfold INT_MAX. lia.
  - reflexivity.
Defined.

(** ** The iterations of the loop *)

Lemma factorial_loop_running (fuel : nat) (n i r : Z) :
  i <= n -> n < INT_MAX -> Z.of_nat fuel < n + 1 - i ->
  factorial_loop pre_increment fuel n i r = OutOfFuel.
Proof.
  revert i r. induction fuel as [|fuel IH]; intros i r Hi Hn Hfuel;
    rewrite factorial_loop_eq; destruct (Z.leb_spec i n); try lia.
  - reflexivity.
  - rewrite pre_increment_lt by lia. apply IH; lia.
Qed.

(** X5: for [n] from 2 up to [INT_MAX - 1] the body of the loop runs
    [n - 1] times, no less: allowed fewer iterations the function is still
    running, allowed that many or more it returns n! modulo 2^64. *)
Theorem calculateFactorialRuntime_iterations (fuel : nat) (n : Z) :
  2 <= n < INT_MAX ->
  calculateFactorialRuntime_fuel fuel n
  = if Z.of_nat fuel <? n - 1 then OutOfFuel
    else Returns (fact (Z.to_nat n) mod 2 ^ 64).
Proof.
  intros Hn. destruct (Z.ltb_spec (Z.of_nat fuel) (n - 1)).
  - unfold calculateFactorialRuntime_fuel.
    rewrite calculateFactorialRuntime_with_loop by lia.
    apply factorial_loop_running; lia.
  - apply calculateFactorialRuntime_fuel_returns; lia.
Qed.

Lemma calculateFactorialRuntime_iterations_witness :
  calculateFactorialRuntime_fuel 3 5 = OutOfFuel
  /\ calculateFactorialRuntime_fuel 4 5 = Returns 120.
Proof.
  split.
  - apply (calculateFactorialRuntime_iterations 3 5). unfold INT_MAX. lia.
  - apply (calculateFactorialRuntime_iterations 4 5). unfold INT_MAX. lia.
Defined.

Lemma factorial_loop_wrapv_agrees (fuel : nat) (n i r : Z) :
  n < INT_MAX ->
  factorial_loop pre_increment_wrapv fuel n i r
  = factorial_loop pre_increment fuel n i r.
Proof.
  intros Hn. revert i r. induction fuel as [|fuel IH]; intros i r;
    rewrite !(factorial_loop_eq _ _ n i r); destruct (Z.leb_spec i n);
    try reflexivity.
  unfold pre_increment_wrapv, pre_increment.
  destruct (Z.ltb_spec i INT_MAX); [apply IH|lia].
Qed.

(** X6: below [INT_MAX] it makes no difference whether signed overflow is
    undefined or wraps: with the same fuel the function has the same
    outcome under both. *)
Theorem calculateFactorialRuntime_wrapv_agrees (fuel : nat) (n : Z) :
  n < INT_MAX ->
  calculateFactorialRuntime_wrapv fuel n = calculateFactorialRuntime_fuel fuel n.
Proof.
  intros Hn.
  unfold calculateFactorialRuntime_wrapv, calculateFactorialRuntime_fuel,
    calculateFactorialRuntime_with.
  destruct (n <? 0); [reflexivity|].
  destruct ((n =? 0) || (n =? 1)); [reflexivity|].
  apply factorial_loop_wrapv_agrees, Hn.
Qed.

Lemma calculateFactorialRuntime_wrapv_agrees_witness :
  calculateFactorialRuntime_wrapv 30 25 = calculateFactorialRuntime_fuel 30 25.
Proof.
  apply (calculateFactorialRuntime_wrapv_agrees 30 25). unfold INT_MAX. lia.
Defined.

(** ** The trailing zero bits of the result *)

Lemma pow2_divide_pow2 (a b : Z) : 0 <= a <= b -> (2 ^ a | 2 ^ b).
Proof.
  intros H. exists (2 ^ (b - a)). rewrite <- Z.pow_add_r by lia. f_equal. lia.
Qed.

Lemma divide_to_u64 (k x : Z) : 0 <= k <= 64 -> ((2 ^ k | to_u64 x) <-> (2 ^ k | x)).
Proof.
  intros Hk. pose proof (pow2_divide_pow2 k 64 Hk) as Hd.
  unfold to_u64. rewrite Z.mod_eq by lia. split; intros H.
  - replace x with (x - 2 ^ 64 * (x / 2 ^ 64) + 2 ^ 64 * (x / 2 ^ 64)) by ring.
    apply Z.divide_add_r; [exact H|]. apply Z.divide_mul_l, Hd.
  - apply Z.divide_sub_r; [exact H|]. apply Z.divide_mul_l, Hd.
Qed.

(** X7: up to 65 the result ends in exactly [n - s] zero bits, where [s]
    is the number of one bits of [n]: it is a multiple of that power of 2
    and of no higher one. *)
Theorem CalculateFactorial_trailing_zeros (n : Z) :
  0 <= n <= 65 ->
  exists v : Z,
    CalculateFactorial n = Returns v
    /\ (2 ^ (n - Z.of_nat (digit_sum (Z.to_nat n))) | v)
    /\ ~ (2 ^ (n - Z.of_nat (digit_sum (Z.to_nat n)) + 1) | v).
Proof.
  intros Hn. exists (to_u64 (fact (Z.to_nat n))).
  pose proof (nu2_fact_digit_sum (Z.to_nat n)) as HL.
  pose proof (nu2_fact_monotone (Z.to_nat n) 65 ltac:(lia)) as Hm.
  rewrite nu2_fact_65 in Hm.
  replace (n - Z.of_nat (digit_sum (Z.to_nat n)))
    with (Z.of_nat (nu2_fact (Z.to_nat n))) by lia.
  split; [|split].
  - unfold CalculateFactorial.
    apply calculateFactorialRuntime_returns. unfold INT_MAX. lia.
  - apply divide_to_u64; [lia|]. apply nu2_fact_divides.
  - intros H.
    apply (proj1 (divide_to_u64 (Z.of_nat (nu2_fact (Z.to_nat n)) + 1)
                    (fact (Z.to_nat n)) ltac:(lia))) in H.
    apply (nu2_fact_maximal (Z.to_nat n)).
    rewrite Nat2Z.inj_succ. exact H.
Qed.

(** 10 = 1010b: 10! = 3628800 = 2^8 * 14175. *)
Lemma CalculateFactorial_trailing_zeros_witness :
  exists v : Z,
    CalculateFactorial 10 = Returns v /\ (2 ^ 8 | v) /\ ~ (2 ^ 9 | v).
Proof.
  apply (CalculateFactorial_trailing_zeros 10). lia.
Defined.

(** ** The domain of the template *)

(** X8: with [depth] nested instantiations allowed, [Factorial<N>] has a
    value exactly for [N] from 0 to [depth], and the value is N! modulo
    2^64; for a negative [N], whatever the depth, and for an [N] above the
    depth the program does not compile. *)
Theorem Factorial_template_domain (depth : nat) (N : Z) :
  (0 <= N <= Z.of_nat depth ->
   Factorial_value depth N = Some (fact (Z.to_nat N) mod 2 ^ 64))
  /\ (N < 0 \/ Z.of_nat depth < N -> Factorial_value depth N = None).
Proof.
  split.
  - apply Factorial_value_in_domain.
  - apply Factorial_value_outside_domain.
Qed.

Lemma Factorial_template_domain_witness :
  Factorial_value 900 25 = Some (fact 25 mod 2 ^ 64)
  /\ Factorial_value 900 (-1) = None
  /\ Factorial_value 900 901 = None.
Proof.
  split; [|split].
  - apply (proj1 (Factorial_template_domain 900 25)). lia.
  - apply (proj2 (Factorial_template_domain 900 (-1))). left. lia.
  - apply (proj2 (Factorial_template_domain 900 901)). right. lia.
Defined.

(** ** GetComputerNameString with valid arguments *)

Lemma to_u32_capacity (bufferSize : Z) :
  0 < bufferSize <= INT_MAX -> to_u32 bufferSize = bufferSize.
Proof. intros H. apply to_u32_small. unfold INT_MAX in H. lia. Qed.

(** X9: with a buffer that is not null and a positive [int] capacity, the
    function makes exactly one system call, the name query of the
    platform, and hands it the caller's buffer and the caller's capacity
    unchanged (the cast to [DWORD] keeps the value); it returns true
    exactly when that call does not fail, and leaves the state as the call
    left it. *)
Theorem GetComputerNameString_valid_one_call {W : Type} (h : handler W)
  (w : W) (plat : platform) (buffer bufferSize : Z) :
  buffer <> nullptr -> 0 < bufferSize <= INT_MAX ->
  os_calls h (GetComputerNameString plat buffer bufferSize) w
  = [OsCall (hostname_call plat buffer bufferSize)]
  /\ (fst (run h (GetComputerNameString plat buffer bufferSize) w) = true
      <-> ~ hostname_call_fails h w plat buffer bufferSize)
  /\ snd (run h (GetComputerNameString plat buffer bufferSize) w)
     = snd (h _ (hostname_call plat buffer bufferSize) w).
Proof.
  intros Hb Hs. rewrite GetComputerNameString_valid by lia.
  unfold hostname_call_fails, hostname_call.
  rewrite (to_u32_capacity bufferSize Hs).
  destruct plat; rewrite os_calls_Call, run_Call; cbn [os_calls run fst snd];
    (split; [reflexivity|]); (split; [|reflexivity]).
  - rewrite negb_true_iff, Z.eqb_neq. reflexivity.
  - rewrite Z.eqb_eq. split; [intros -> H; apply H; reflexivity|].
    intros H. destruct (Z.eq_dec (fst (h Z (gethostname buffer bufferSize) w)) 0);
      [assumption|contradiction].
  - rewrite Z.eqb_eq. split; [intros -> H; apply H; reflexivity|].
    intros H. destruct (Z.eq_dec (fst (h Z (gethostname buffer bufferSize) w)) 0);
      [assumption|contradiction].
Qed.

Lemma GetComputerNameString_valid_one_call_witness :
  os_calls ref_os (GetComputerNameString Win32 4096 16) a_machine
  = [OsCall (GetComputerNameA 4096 16)]
  /\ fst (run ref_os (GetComputerNameString Win32 4096 16) a_machine) = true.
Proof.
  destruct (GetComputerNameString_valid_one_call ref_os a_machine Win32 4096 16)
    as (Hcalls & Htrue & _).
  - unfold nullptr. lia.
  - unfold INT_MAX. lia.
  - split; [exact Hcalls|]. apply Htrue. cbn. discriminate.
Defined.

(** ** The value of GetTotalPhysicalMemory *)

Lemma GetTotalPhysicalMemory_run {W : Type} (h : handler W) (w : W)
  (plat : platform) :
  ~ memory_query_fails h w plat ->
  fst (run h (GetTotalPhysicalMemory plat) w) = memory_query_reports h w plat.
Proof.
  unfold memory_query_fails, memory_query_reports, GetTotalPhysicalMemory.
  destruct plat; intros Hok; rewrite run_Call.
  - apply Z.eqb_neq in Hok. rewrite Hok. reflexivity.
  - destruct (Z.eqb_spec (fst (fst (h _ (sysctl [CTL_HW; HW_MEMSIZE] 2 0 8) w))) 0);
      [reflexivity|contradiction].
  - destruct (Z.eqb_spec (fst (fst (h _ sysinfo w))) 0); [|contradiction].
    cbn [run fst]. apply mul_u64_to_u64.
Qed.

Lemma GetTotalPhysicalMemory_run_fails {W : Type} (h : handler W) (w : W)
  (plat : platform) :
  memory_query_fails h w plat ->
  fst (run h (GetTotalPhysicalMemory plat) w) = 0.
Proof.
  unfold memory_query_fails, GetTotalPhysicalMemory.
  destruct plat; intros Hfail; rewrite run_Call.
  - rewrite Hfail. reflexivity.
  - apply Z.eqb_neq in Hfail. rewrite Hfail. reflexivity.
  - apply Z.eqb_neq in Hfail. rewrite Hfail. reflexivity.
Qed.

Lemma memory_query_fails_dec {W : Type} (h : handler W) (w : W)
  (plat : platform) :
  memory_query_fails h w plat \/ ~ memory_query_fails h w plat.
Proof.
  unfold memory_query_fails. destruct plat;
    match goal with |- ?x = 0 \/ _ => destruct (Z.eq_dec x 0)
                  | |- ?x <> 0 \/ _ => destruct (Z.eq_dec x 0) end; tauto.
Qed.

(** X10: on every branch, when the query succeeds the function returns
    the amount the query reports, on Windows and on the Apple branch as
    it is; so the result is 0 exactly when the query fails or reports 0
    bytes: a 0 does not by itself tell a failure. *)
Theorem GetTotalPhysicalMemory_value {W : Type} (h : handler W) (w : W)
  (plat : platform) :
  (~ memory_query_fails h w plat ->
   fst (run h (GetTotalPhysicalMemory plat) w) = memory_query_reports h w plat)
  /\ (fst (run h (GetTotalPhysicalMemory plat) w) = 0
      <-> memory_query_fails h w plat \/ memory_query_reports h w plat = 0).
Proof.
  split; [apply GetTotalPhysicalMemory_run|].
  destruct (memory_query_fails_dec h w plat) as [Hf|Hok].
  - split; [intros _; left; exact Hf|]. intros _.
    apply GetTotalPhysicalMemory_run_fails, Hf.
  - rewrite (GetTotalPhysicalMemory_run h w plat Hok). tauto.
Qed.

Lemma GetTotalPhysicalMemory_value_witness :
  fst (run ref_os (GetTotalPhysicalMemory Apple) a_machine) = 17179869184.
Proof.
  apply (proj1 (GetTotalPhysicalMemory_value ref_os a_machine Apple)).
  cbn. intros H. apply H. reflexivity.
Defined.

(** X11: on the Linux branch, after a successful query with fields that
    are not negative, the result never exceeds the product
    [totalram * mem_unit]; it is the product exactly when the product is
    below 2^64, which it always is when both fields are below 2^32. *)
Theorem GetTotalPhysicalMemory_Linux_never_over_reports {W : Type}
  (h : handler W) (w w' : W) (info : sysinfo_t) :
  h _ sysinfo w = ((0, info), w') ->
  0 <= totalram info -> 0 <= mem_unit info ->
  fst (run h (GetTotalPhysicalMemory Linux) w) <= totalram info * mem_unit info
  /\ (fst (run h (GetTotalPhysicalMemory Linux) w)
      = totalram info * mem_unit info
      <-> totalram info * mem_unit info < 2 ^ 64)
  /\ (totalram info < 2 ^ 32 -> mem_unit info < 2 ^ 32 ->
      fst (run h (GetTotalPhysicalMemory Linux) w)
      = totalram info * mem_unit info).
Proof.
  intros Hcall Ht Hm.
  rewrite (GetTotalPhysicalMemory_Linux_run h w w' info Hcall). cbn [fst].
  assert (Hp : 0 <= totalram info * mem_unit info) by (apply Z.mul_nonneg_nonneg; lia).
  pose proof (to_u64_range (totalram info * mem_unit info)) as Hr.
  split; [|split].
  - unfold to_u64. apply Z.mod_le; lia.
  - split.
    + intros E. rewrite <- E. apply Hr.
    + intros Hlt. apply to_u64_small. lia.
  - intros Ht32 Hm32. apply to_u64_small.
    change (2 ^ 64) with (2 ^ 32 * 2 ^ 32). nia.
Qed.

Lemma GetTotalPhysicalMemory_Linux_never_over_reports_witness :
  fst (run ref_os (GetTotalPhysicalMemory Linux) a_machine) <= 4194304 * 4096.
Proof.
  apply (GetTotalPhysicalMemory_Linux_never_over_reports ref_os a_machine
           a_machine (mk_sysinfo 4194304 4096) eq_refl); cbn; lia.
Defined.

(** ** The narrowing of the process identifier *)

Lemma to_u32_injective_in_int (x y : Z) :
  in_int x -> in_int y -> to_u32 x = to_u32 y -> x = y.
Proof.
  unfold in_int, INT_MIN, INT_MAX, to_u32. intros Hx Hy E.
  rewrite !Z.mod_eq in E by lia.
  change (2 ^ 32) with 4294967296 in E. lia.
Qed.

(** X12: the narrowing to [uint32_t] loses nothing: two identifiers of
    the platform's identifier type that give the same result are the same
    identifier. *)
Theorem GetCurrentProcessID_injective {W1 W2 : Type} (h1 : handler W1)
  (w1 : W1) (h2 : handler W2) (w2 : W2) (plat : platform) :
  pid_in_range plat (os_pid h1 w1 plat) ->
  pid_in_range plat (os_pid h2 w2 plat) ->
  fst (run h1 (GetCurrentProcessID plat) w1)
  = fst (run h2 (GetCurrentProcessID plat) w2) ->
  os_pid h1 w1 plat = os_pid h2 w2 plat.
Proof.
  rewrite !GetCurrentProcessID_run. destruct plat; cbn [pid_in_range];
    intros H1 H2 E.
  - rewrite !to_u32_small in E by assumption. exact E.
  - apply to_u32_injective_in_int; assumption.
  - apply to_u32_injective_in_int; assumption.
Qed.

Lemma GetCurrentProcessID_injective_witness :
  os_pid ref_os a_machine Linux = os_pid ref_os a_failing_machine Linux.
Proof.
  apply (GetCurrentProcessID_injective ref_os a_machine ref_os a_failing_machine
           Linux).
  - cbn. unfold in_int, INT_MIN, INT_MAX. lia.
  - cbn. unfold in_int, INT_MIN, INT_MAX. lia.
  - reflexivity.
Defined.

(** ** The system calls of the interface *)

Lemma os_calls_map_prog {W A B : Type} (h : handler W) (f : A -> B)
  (p : prog A) (w : W) :
  os_calls h (map_prog f p) w = os_calls h p w.
Proof.
  revert w. induction p as [r|X e k IH]; intros w.
  - reflexivity.
  - cbn [map_prog]. rewrite !os_calls_Call. f_equal. apply IH.
Qed.

(** X13: no call through the interface makes more than one system call,
    on any system and in any state, and [CalculateFactorial] makes none:
    nothing is retried and nothing is queried twice. *)
Theorem invoke_at_most_one_os_call {W : Type} (h : handler W) (w : W)
  (plat : platform) (c : exported_call) :
  (length (os_calls h (invoke plat c) w) <= 1)%nat
  /\ match c with
     | Call_CalculateFactorial _ => os_calls h (invoke plat c) w = []
     | Call_GetComputerNameString _ _ => True
     | Call_GetTotalPhysicalMemory | Call_GetCurrentProcessID =>
         length (os_calls h (invoke plat c) w) = 1%nat
     end.
Proof.
  destruct c as [buffer bufferSize| | |n]; cbn [invoke];
    rewrite ?os_calls_map_prog.
  - split; [|exact I]. unfold GetComputerNameString.
    destruct ((buffer =? nullptr) || (bufferSize <=? 0)); [cbn; lia|].
    destruct plat; rewrite os_calls_Call; cbn; lia.
  - assert (E : length (os_calls h (GetTotalPhysicalMemory plat) w) = 1%nat).
    { destruct plat; unfold GetTotalPhysicalMemory; rewrite os_calls_Call;
        cbn [length]; f_equal;
        match goal with |- context [if ?b then _ else _] => destruct b end;
        reflexivity. }
    rewrite E. split; [lia|reflexivity].
  - assert (E : length (os_calls h (GetCurrentProcessID plat) w) = 1%nat).
    { destruct plat; unfold GetCurrentProcessID; rewrite os_calls_Call;
        reflexivity. }
    rewrite E. split; [lia|reflexivity].
  - split; [cbn; lia|reflexivity].
Qed.
